(** * scheduler.h: statistics sinks, analytical steps and the pipeline scheduler

    A shallow embedding of [src/scheduler.h].  Heap objects of type [T*] are
    modelled as addresses into a finite map; [std::list<T*>] is a list of
    addresses with [front] at the head and [back] at the end. *)

From Equations Require Import Equations.
From stdpp Require Import gmap list fin_maps.

(** ** Object store *)

(** Addresses of heap-allocated objects ([T*]). *)
Abbreviation loc := positive (only parsing).

Module Sink.

Section statistics_sink.

(** The sink type [T]; [combine x y] is the value of [x] after [x += y];
    [new_sink_init] is the content of the object built by the subclass hook
    [new_sink()]. *)
Context {T : Type}.
Variable combine : T → T → T.
Variable new_sink_init : T.

(** [m_sinks] is the list of inactive sinks; [store] holds every live [T]
    object of the program ([m_sinks_lock] serialises the member functions, so
    each of them is one atomic transition). *)
Record sink_state := SinkState {
  m_sinks : list loc;
  store : gmap loc T
}.

(** [statistics_sink<T>::statistics_sink()] *)
Definition statistics_sink (h : gmap loc T) : sink_state :=
  {| m_sinks := []; store := h |}.

(** The hook [new_sink() const], pure virtual here and implemented in
    subclasses: by its contract it returns a new sink object, that is a live
    object, holding [new_sink_init], at an address that was not live. *)
Definition new_sink (h : gmap loc T) : loc * gmap loc T :=
  let ptr := fresh (dom h) in (ptr, <[ptr := new_sink_init]> h).

(** [statistics_sink<T>::get_sink()] *)
Definition get_sink (st : sink_state) : loc * sink_state :=
  match m_sinks st with
  | [] =>
      let '(ptr, h) := new_sink (store st) in
      (ptr, {| m_sinks := []; store := h |})
  | ptr :: rest => (ptr, {| m_sinks := rest; store := store st |})
  end.

(** [statistics_sink<T>::return_sink(T* ptr)] *)
Definition return_sink (ptr : loc) (st : sink_state) : sink_state :=
  {| m_sinks := m_sinks st ++ [ptr]; store := store st |}.

(** [*result += *back]; reading through a pointer that is not live is
    undefined behaviour, modelled as [None]. *)
Definition plus_assign (result back : loc) (h : gmap loc T) : option (gmap loc T) :=
  match h !! result, h !! back with
  | Some x, Some y => Some (<[result := combine x y]> h)
  | _, _ => None
  end.

(** [delete ptr]; freeing an address that is not live is undefined. *)
Definition delete_obj (ptr : loc) (h : gmap loc T) : option (gmap loc T) :=
  match h !! ptr with
  | Some _ => Some (delete ptr h)
  | None => None
  end.

(** Keeps the equation of a test for the branch that depends on it. *)
Definition inspect {A} (a : A) : {b | a = b} := exist _ a eq_refl.

(** The [while (!m_sinks.empty())] loop of [finalize]; it returns the list
    (empty on exit) and the store. *)
Equations? finalize_loop (result : loc) (sinks : list loc) (h : gmap loc T)
  : option (list loc * gmap loc T) by wf (length sinks) lt :=
  finalize_loop result sinks h with inspect (last sinks) := {
    | exist _ None _ => Some (sinks, h);
    | exist _ (Some back) Hback =>
        match plus_assign result back h with
        | None => None
        | Some h1 =>
            match delete_obj back h1 with
            | None => None
            | Some h2 => finalize_loop result (removelast sinks) h2
            end
        end }.
Proof.
  destruct sinks as [|x l] using rev_ind; [done|].
  rewrite removelast_last, length_app. simpl. lia.
Qed.

(** [statistics_sink<T>::finalize()]; [last] is [None] exactly when
    [m_sinks.empty()], and [removelast] is [pop_back]. *)
Definition finalize (st : sink_state) : option (loc * sink_state) :=
  match last (m_sinks st) with
  | None =>
      let '(ptr, h) := new_sink (store st) in
      Some (ptr, {| m_sinks := m_sinks st; store := h |})
  | Some result =>
      match finalize_loop result (removelast (m_sinks st)) (store st) with
      | None => None
      | Some (sinks, h) => Some (result, {| m_sinks := sinks; store := h |})
      end
  end.

(** *** Contents and reduction order *)

(** The contents of the pooled sinks, front first; [None] if one of the
    pointers is dangling. *)
Definition sink_contents (st : sink_state) : option (list T) :=
  mapM (λ ptr, store st !! ptr) (m_sinks st).

(** [x1 + x2 + ... + xn] associated to the left; undefined for no operand. *)
Definition left_fold (xs : list T) : option T :=
  match xs with
  | [] => None
  | x :: rest => Some (foldl combine x rest)
  end.

(** *** Call sequences *)

(** The public member functions, and what a client does with a sink it holds
    ([Mutate ptr v]: the object at [ptr], if live, now holds [v]). *)
Inductive call :=
  | GetSink
  | ReturnSink (ptr : loc)
  | Finalize
  | Mutate (ptr : loc) (v : T).

(** One call: the pointer it returns, if any, and the new state. *)
Definition run_call (c : call) (st : sink_state) : option (option loc * sink_state) :=
  match c with
  | GetSink => let '(ptr, st') := get_sink st in Some (Some ptr, st')
  | ReturnSink ptr => Some (None, return_sink ptr st)
  | Finalize =>
      match finalize st with
      | Some (ptr, st') => Some (Some ptr, st')
      | None => None
      end
  | Mutate ptr v =>
      Some (None, {| m_sinks := m_sinks st;
                     store := if store st !! ptr is Some _ then <[ptr := v]> (store st)
                              else store st |})
  end.

(** A sequence of calls: the returned pointers, in call order, and the final
    state. *)
Fixpoint exec (cs : list call) (st : sink_state) : option (list loc * sink_state) :=
  match cs with
  | [] => Some ([], st)
  | c :: cs' =>
      match run_call c st with
      | None => None
      | Some (out, st1) =>
          match exec cs' st1 with
          | None => None
          | Some (outs, st2) => Some (option_list out ++ outs, st2)
          end
      end
  end.

End statistics_sink.

Arguments sink_state : clear implicits.
Arguments call : clear implicits.

End Sink.

(** ** Analytical steps *)

Module Step.

(** [analytical_step::ordering] *)
Inductive ordering :=
  | ordered    (* data must be consumed in the input order *)
  | unordered. (* data may be consumed in any order *)

(** The private members of [analytical_step]. *)
Record analytical_step := AnalyticalStep {
  m_step_order : ordering;
  m_file_io : bool
}.

(** Modelled from the spec: the body of the constructor
    [analytical_step::analytical_step(ordering step_order, bool file_io)] is
    in scheduler.cc, which is not among the sources; the header only declares
    it.  The two descriptors are "fixed at construction" from the two
    arguments. *)
Definition new_analytical_step (step_order : ordering) (file_io : bool) : analytical_step :=
  {| m_step_order := step_order; m_file_io := file_io |}.

(** The call [analytical_step(step_order)]: the declaration
    [analytical_step(ordering step_order, bool file_io = false)] supplies the
    argument left out. *)
Definition new_analytical_step_default (step_order : ordering) : analytical_step :=
  new_analytical_step step_order false.

(** [analytical_step::finalize()], the empty body of the base class. *)
Definition finalize (s : analytical_step) : analytical_step := s.

(** [analytical_step::get_ordering() const] *)
Definition get_ordering (s : analytical_step) : ordering := m_step_order s.

(** [analytical_step::file_io() const] *)
Definition file_io (s : analytical_step) : bool := m_file_io s.

Section derived.

(** A class derived from [analytical_step] adds fields of its own ([D]),
    implements the pure virtual [process] and may override [finalize].  The
    members of the base are private, so neither of the two reaches them: both
    act on [D] only. *)
Context {chunk D : Type}.

(** [chunk_pair] and [chunk_list] *)
Definition chunk_pair : Type := N * chunk.
Definition chunk_list : Type := list chunk_pair.

Record step_class := StepClass {
  process : D → option chunk → D * chunk_list;
  finalize_override : option (D → D)
}.

Record step_object := StepObject {
  base : analytical_step;
  fields : D
}.

(** The virtual call [step->finalize()]. *)
Definition virtual_finalize (cls : step_class) (obj : step_object) : step_object :=
  match finalize_override cls with
  | Some f => {| base := base obj; fields := f (fields obj) |}
  | None => {| base := finalize (base obj); fields := fields obj |}
  end.

(** The virtual call [step->process(chunk)]; the returned chunks go to the
    caller. *)
Definition virtual_process (cls : step_class) (c : option chunk) (obj : step_object)
  : step_object * chunk_list :=
  let '(d, out) := process cls (fields obj) c in
  ({| base := base obj; fields := d |}, out).

(** The public interface of a step. *)
Inductive step_call :=
  | Process (c : option chunk)
  | CallFinalize
  | GetOrdering
  | FileIo.

Definition run_step_call (cls : step_class) (obj : step_object) (c : step_call) : step_object :=
  match c with
  | Process c => fst (virtual_process cls c obj)
  | CallFinalize => virtual_finalize cls obj
  | GetOrdering => obj
  | FileIo => obj
  end.

Definition run_step_calls (cls : step_class) (cs : list step_call) (obj : step_object) : step_object :=
  foldl (run_step_call cls) obj cs.

End derived.

Arguments step_class : clear implicits.
Arguments step_object : clear implicits.
Arguments step_call : clear implicits.

End Step.

(** ** Dispatch of runnable steps *)

Module Dispatch.

Import Step.

(** Modelled from the spec: [scheduler::do_run], [execute_analytical_step]
    and [queue_analytical_step] are defined in scheduler.cc, which is not
    among the sources; the header declares the members below.  The worker
    loop is the one of the dispatch model: each numbered step of the loop that
    runs under [m_queue_lock] is one atomic transition.  [executing] records,
    for each worker between its claim (step 3 or 4) and its completion
    (step 7), the id of the step it claimed. *)
Record scheduler := Scheduler {
  m_steps : list analytical_step;
  m_queue_calc : list nat;
  m_queue_io : list nat;
  m_io_active : bool;
  executing : gmap nat nat
}.

Definition step_file_io (s : scheduler) (id : nat) : bool :=
  match m_steps s !! id with
  | Some st => file_io st
  | None => false
  end.

(** Modelled from the spec: a runnable step goes to the io queue when its
    [file_io] is true and to the calc queue otherwise; a step id that is not
    registered is a pipeline error and nothing is queued. *)
Definition queue_analytical_step (s : scheduler) (id : nat) : scheduler :=
  match m_steps s !! id with
  | None => s
  | Some st =>
      if file_io st
      then {| m_steps := m_steps s; m_queue_calc := m_queue_calc s;
              m_queue_io := m_queue_io s ++ [id];
              m_io_active := m_io_active s; executing := executing s |}
      else {| m_steps := m_steps s; m_queue_calc := m_queue_calc s ++ [id];
              m_queue_io := m_queue_io s;
              m_io_active := m_io_active s; executing := executing s |}
  end.

(** Modelled from the spec: steps 3 to 5 of the worker loop, for worker [w]
    holding the lock.  A worker that is executing a step is not at this point
    of its loop. *)
Definition claim (w : nat) (s : scheduler) : scheduler :=
  match executing s !! w with
  | Some _ => s
  | None =>
      match m_io_active s, m_queue_io s with
      | false, id :: rest =>
          {| m_steps := m_steps s; m_queue_calc := m_queue_calc s;
             m_queue_io := rest; m_io_active := true;
             executing := <[w := id]> (executing s) |}
      | _, _ =>
          match m_queue_calc s with
          | id :: rest =>
              {| m_steps := m_steps s; m_queue_calc := rest;
                 m_queue_io := m_queue_io s; m_io_active := m_io_active s;
                 executing := <[w := id]> (executing s) |}
          | [] => s
          end
      end
  end.

(** Modelled from the spec: step 7 of the worker loop, for worker [w] that has
    executed its step and holds the lock again; [runnable] lists the steps
    that the re-evaluation finds runnable (any steps: nothing below depends on
    which). *)
Definition complete (w : nat) (runnable : list nat) (s : scheduler) : scheduler :=
  match executing s !! w with
  | None => s
  | Some id =>
      foldl queue_analytical_step
        {| m_steps := m_steps s; m_queue_calc := m_queue_calc s;
           m_queue_io := m_queue_io s;
           m_io_active := if step_file_io s id then false else m_io_active s;
           executing := delete w (executing s) |}
        runnable
  end.

Inductive event :=
  | Claim (w : nat)
  | Complete (w : nat) (runnable : list nat).

Definition step_event (s : scheduler) (e : event) : scheduler :=
  match e with
  | Claim w => claim w s
  | Complete w runnable => complete w runnable s
  end.

(** Modelled from the spec: at the start of [run] no worker executes
    anything, the io slot is free and the source, step 0, is runnable. *)
Definition start (steps : list analytical_step) : scheduler :=
  queue_analytical_step
    {| m_steps := steps; m_queue_calc := []; m_queue_io := [];
       m_io_active := false; executing := ∅ |} 0.

(** The state after an interleaving [es] of the workers' transitions. *)
Definition run (steps : list analytical_step) (es : list event) : scheduler :=
  foldl step_event (start steps) es.

(** Worker [w] is executing a step that involves file io. *)
Definition executing_io (s : scheduler) (w : nat) : Prop :=
  ∃ id, executing s !! w = Some id ∧ step_file_io s id = true.

(** The workers that are executing a step that involves file io, and the
    ones that are executing a step that does not. *)
Definition io_workers (s : scheduler) : gmap nat nat :=
  filter (λ wid, step_file_io s wid.2 = true) (executing s).

Definition calc_workers (s : scheduler) : gmap nat nat :=
  filter (λ wid, step_file_io s wid.2 = false) (executing s).

(** What the lock protects: the queues hold steps of their kind, a free io
    slot means that no worker executes a step with file io, and no two
    workers do. *)
Definition dispatch_inv (s : scheduler) : Prop :=
  Forall (λ id, step_file_io s id = true) (m_queue_io s)
  ∧ Forall (λ id, step_file_io s id = false) (m_queue_calc s)
  ∧ (m_io_active s = false → ∀ w, ¬ executing_io s w)
  ∧ (∀ w1 w2, executing_io s w1 → executing_io s w2 → w1 = w2).

End Dispatch.

(** ** Ordered delivery *)

Module Ordered.

Section ordered.

Context {chunk : Type}.

(** A chunk with the sequence number the scheduler stamped on it. *)
Record tagged := Tagged {
  chunk_seq : nat;
  chunk_data : chunk
}.

(** Modelled from the spec: [struct scheduler_step] is only declared in the
    header.  For an ordered step it holds the input buffer, a map from
    sequence number to pending chunk, and the sequence number the step is
    waiting for. *)
Record scheduler_step := SchedulerStep {
  input_buffer : gmap nat tagged;
  next_expected_seq : nat
}.

(** Modelled from the spec: a chunk routed to the step is inserted into its
    input buffer under its sequence number. *)
Definition deliver (t : tagged) (s : scheduler_step) : scheduler_step :=
  {| input_buffer := <[chunk_seq t := t]> (input_buffer s);
     next_expected_seq := next_expected_seq s |}.

(** Modelled from the spec: the step is runnable iff [next_expected_seq] is
    in the buffer; executing it pops the chunk at [next_expected_seq] and
    increments [next_expected_seq].  [None]: not runnable. *)
Definition dispatch (s : scheduler_step) : option (tagged * scheduler_step) :=
  match input_buffer s !! next_expected_seq s with
  | None => None
  | Some t =>
      Some (t, {| input_buffer := delete (next_expected_seq s) (input_buffer s);
                  next_expected_seq := S (next_expected_seq s) |})
  end.

(** A source, chunks on their way through unordered steps, and an ordered
    step.  [emitted] and [consumed] are histories: the chunks the source
    produced, and the inputs passed to the ordered step's [process], each with
    the value of [next_expected_seq] at that moment; oldest first. *)
Record pipeline := Pipeline {
  m_chunk_counter : nat;
  emitted : list tagged;
  in_flight : list tagged;
  consumer : scheduler_step;
  consumed : list (tagged * nat)
}.

Inductive event :=
  | Emit (c : chunk)     (* the source returns a chunk *)
  | Deliver (i : nat)    (* the i-th chunk in flight reaches the ordered step *)
  | Dispatch.            (* a worker claims the ordered step *)

(** Modelled from the spec: the source's outputs receive fresh sequence
    numbers, from [m_chunk_counter], in return order; steps in between keep
    the sequence number of what they consume and may run in any order. *)
Definition step_event (p : pipeline) (e : event) : pipeline :=
  match e with
  | Emit c =>
      let t := {| chunk_seq := m_chunk_counter p; chunk_data := c |} in
      {| m_chunk_counter := S (m_chunk_counter p);
         emitted := emitted p ++ [t];
         in_flight := in_flight p ++ [t];
         consumer := consumer p;
         consumed := consumed p |}
  | Deliver i =>
      match in_flight p !! i with
      | None => p
      | Some t =>
          {| m_chunk_counter := m_chunk_counter p;
             emitted := emitted p;
             in_flight := delete i (in_flight p);
             consumer := deliver t (consumer p);
             consumed := consumed p |}
      end
  | Dispatch =>
      match dispatch (consumer p) with
      | None => p
      | Some (t, s) =>
          {| m_chunk_counter := m_chunk_counter p;
             emitted := emitted p;
             in_flight := in_flight p;
             consumer := s;
             consumed := consumed p ++ [(t, next_expected_seq (consumer p))] |}
      end
  end.

Definition start : pipeline :=
  {| m_chunk_counter := 0; emitted := []; in_flight := [];
     consumer := {| input_buffer := ∅; next_expected_seq := 0 |};
     consumed := [] |}.

Definition run (es : list event) : pipeline := foldl step_event start es.

(** The histories agree with the counters, and every chunk that is on its
    way or buffered is the chunk the source produced under that sequence
    number. *)
Definition pipeline_inv (p : pipeline) : Prop :=
  length (emitted p) = m_chunk_counter p
  ∧ (∀ i t, emitted p !! i = Some t → chunk_seq t = i)
  ∧ (∀ t, t ∈ in_flight p → emitted p !! chunk_seq t = Some t)
  ∧ (∀ k t, input_buffer (consumer p) !! k = Some t → emitted p !! k = Some t)
  ∧ next_expected_seq (consumer p) ≤ length (emitted p)
  ∧ consumed p = zip (take (next_expected_seq (consumer p)) (emitted p))
                     (seq 0 (next_expected_seq (consumer p))).

End ordered.

Arguments tagged : clear implicits.
Arguments scheduler_step : clear implicits.
Arguments pipeline : clear implicits.
Arguments event : clear implicits.

End Ordered.

(** ** Lifetime of the sinks *)

Module SinkUse.

Import Sink.

Section sink_use.

Context {T : Type}.
Variable combine : T → T → T.
Variable new_sink_init : T.

(** The loop of [statistics_sink<T>::~statistics_sink()]: [delete *it] for
    every element of [m_sinks], from [begin()] to [end()].  Addresses stand
    for non-null pointers. *)
Fixpoint delete_sinks (sinks : list loc) (h : gmap loc T) : option (gmap loc T) :=
  match sinks with
  | [] => Some h
  | ptr :: rest =>
      match delete_obj ptr h with
      | None => None
      | Some h' => delete_sinks rest h'
      end
  end.

(** [statistics_sink<T>::~statistics_sink()]: what is left of the store, or
    [None] when a [delete] is undefined. *)
Definition destroy (st : sink_state T) : option (gmap loc T) :=
  delete_sinks (m_sinks st) (store st).

(** *** Clients *)

(** The sinks that clients hold (acquired, or received from [finalize], and
    not handed back), together with the sink pool. *)
Definition client_state : Type := gset loc * sink_state T.

(** A client follows the header's protocol when it hands back ("return a
    sink after it has been used") and writes to sinks that it holds only. *)
Inductive client_step : client_state → call T → client_state → Prop :=
  | step_get held st ptr st' :
      get_sink new_sink_init st = (ptr, st') →
      client_step (held, st) GetSink ({[ptr]} ∪ held, st')
  | step_return held st ptr :
      ptr ∈ held →
      client_step (held, st) (ReturnSink ptr) (held ∖ {[ptr]}, return_sink ptr st)
  | step_finalize held st result st' :
      finalize combine new_sink_init st = Some (result, st') →
      client_step (held, st) Finalize ({[result]} ∪ held, st')
  | step_mutate held st ptr v st' :
      ptr ∈ held →
      run_call combine new_sink_init (Mutate ptr v) st = Some (None, st') →
      client_step (held, st) (Mutate ptr v) (held, st').

Inductive client_run : client_state → list (call T) → client_state → Prop :=
  | run_done σ : client_run σ [] σ
  | run_step σ1 c σ2 cs σ3 :
      client_step σ1 c σ2 → client_run σ2 cs σ3 → client_run σ1 (c :: cs) σ3.

(** The call [c] is one that the protocol allows a client holding [held]. *)
Definition allowed (held : gset loc) (c : call T) : Prop :=
  match c with
  | ReturnSink ptr | Mutate ptr _ => ptr ∈ held
  | GetSink | Finalize => True
  end.

(** Pooled sinks are live and pairwise distinct, held sinks are live, and no
    sink is both pooled and held. *)
Definition sink_inv (σ : client_state) : Prop :=
  NoDup (m_sinks σ.2)
  ∧ (∀ ptr, ptr ∈ m_sinks σ.2 → is_Some (store σ.2 !! ptr))
  ∧ (∀ ptr, ptr ∈ σ.1 → is_Some (store σ.2 !! ptr))
  ∧ (∀ ptr, ptr ∈ m_sinks σ.2 → ptr ∉ σ.1).

End sink_use.

End SinkUse.

(** * Properties of the statistics sink *)

Section sink_facts.

Import Sink.

Context {T : Type} (combine : T → T → T) (new_sink_init : T).

Implicit Types (st : sink_state T) (h : gmap loc T) (l sinks : list loc).
Implicit Types (ptr result back p q : loc) (vs ws : list T).

Lemma Forall2_impl_elem {A B} (P Q : A → B → Prop) (xs : list A) (ys : list B) :
  Forall2 P xs ys → (∀ x y, x ∈ xs → P x y → Q x y) → Forall2 Q xs ys.
Proof.
  induction 1 as [|x y xs ys HP _ IH]; intros HPQ; constructor.
  - apply HPQ; [left|done].
  - apply IH. intros x' y' Hx'. apply HPQ. by right.
Qed.

(** *** The reduction loop *)

Lemma finalize_loop_eq result sinks h :
  finalize_loop combine result sinks h =
  match last sinks with
  | None => Some (sinks, h)
  | Some back =>
      match plus_assign combine result back h with
      | None => None
      | Some h1 =>
          match delete_obj back h1 with
          | None => None
          | Some h2 => finalize_loop combine result (removelast sinks) h2
          end
      end
  end.
Proof.
  simp finalize_loop.
  destruct (inspect (last sinks)) as [[back|] Hback]; simpl; by rewrite Hback.
Qed.

Lemma finalize_loop_nil result h :
  finalize_loop combine result [] h = Some ([], h).
Proof. by rewrite finalize_loop_eq. Qed.

Lemma finalize_loop_snoc result l back h :
  finalize_loop combine result (l ++ [back]) h =
  h1 ← plus_assign combine result back h;
  h2 ← delete_obj back h1;
  finalize_loop combine result l h2.
Proof.
  rewrite finalize_loop_eq, last_snoc, removelast_last.
  destruct (plus_assign _ _ _ _) as [h1|]; simpl; [|done].
  by destruct (delete_obj _ _) as [h2|].
Qed.

(** The loop only exits on the empty list. *)
Lemma finalize_loop_drains result l h l' h' :
  finalize_loop combine result l h = Some (l', h') → l' = [].
Proof.
  revert h. induction l as [|back l IH] using rev_ind; intros h.
  - rewrite finalize_loop_nil. by intros [= <- _].
  - rewrite finalize_loop_snoc. intros Hloop.
    destruct (plus_assign _ _ _ _) as [h1|]; simpl in Hloop; [|done].
    destruct (delete_obj _ _) as [h2|]; simpl in Hloop; [|done].
    by eapply IH.
Qed.

(** On live, pairwise distinct sinks the loop ends; [result] then holds the
    start value combined with the contents from the back to the front, the
    other sinks are freed and nothing else changes. *)
Lemma finalize_loop_spec result l : ∀ ws h acc,
  NoDup l → result ∉ l →
  h !! result = Some acc →
  Forall2 (λ p v, h !! p = Some v) l ws →
  ∃ h', finalize_loop combine result l h = Some ([], h')
        ∧ h' !! result = Some (foldl combine acc (reverse ws))
        ∧ (∀ p, p ∈ l → h' !! p = None)
        ∧ (∀ q, q ∉ l → q ≠ result → h' !! q = h !! q).
Proof.
  induction l as [|back l IH] using rev_ind; intros ws h acc Hnd Hres Hacc Hws.
  - apply Forall2_nil_inv_l in Hws as ->.
    exists h. rewrite finalize_loop_nil. split_and!; [done..| |done].
    intros p Hp. by apply elem_of_nil in Hp.
  - apply Forall2_app_inv_l in Hws as (ws' & wl & Hws' & Hback & ->).
    apply Forall2_cons_inv_l in Hback as (w & wl' & Hw & Hnil & ->).
    apply Forall2_nil_inv_l in Hnil as ->.
    apply NoDup_app in Hnd as (Hnd & Hdisj & _).
    assert (back ≠ result) as Hne by (intros ->; apply Hres; set_solver).
    assert (back ∉ l) as Hbl by (intros Hin; apply (Hdisj _ Hin); set_solver).
    assert (result ∉ l) as Hrl by set_solver.
    set (h2 := delete back (<[result := combine acc w]> h)).
    destruct (IH ws' h2 (combine acc w)) as (h' & Hloop & Hr & Hfreed & Hframe);
      [done|done| | |].
    { unfold h2. rewrite lookup_delete_ne, lookup_insert_eq; done. }
    { eapply Forall2_impl_elem; [exact Hws'|]. intros p v Hp Hv. unfold h2.
      rewrite lookup_delete_ne, lookup_insert_ne; [done| |];
        intros ->; done. }
    exists h'. rewrite finalize_loop_snoc. unfold plus_assign.
    rewrite Hacc, Hw. simpl. unfold delete_obj.
    rewrite lookup_insert_ne, Hw by done. simpl.
    split_and!.
    + exact Hloop.
    + by rewrite reverse_snoc.
    + intros p [Hp | ->%list_elem_of_singleton]%elem_of_app; [by apply Hfreed|].
      rewrite Hframe by done. unfold h2. by rewrite lookup_delete_eq.
    + intros q Hq Hqr. rewrite Hframe by set_solver. unfold h2.
      rewrite lookup_delete_ne, lookup_insert_ne; [done|done|].
      intros ->. apply Hq. set_solver.
Qed.

(** *** [finalize] *)

Lemma finalize_drains st result st' :
  finalize combine new_sink_init st = Some (result, st') → m_sinks st' = [].
Proof.
  unfold finalize. destruct (last (m_sinks st)) as [r|] eqn:Hlast.
  - destruct (finalize_loop _ _ _ _) as [[l' h']|] eqn:Hloop; [|done].
    intros [= _ <-]. simpl. by eapply finalize_loop_drains.
  - apply last_None in Hlast. intros [= _ <-]. done.
Qed.

Lemma finalize_spec st vs :
  NoDup (m_sinks st) → sink_contents st = Some vs → vs ≠ [] →
  ∃ result st',
    finalize combine new_sink_init st = Some (result, st')
    ∧ last (m_sinks st) = Some result
    ∧ m_sinks st' = []
    ∧ store st' !! result = left_fold combine (reverse vs)
    ∧ (∀ p, p ∈ m_sinks st → p ≠ result → store st' !! p = None)
    ∧ (∀ q, q ∉ m_sinks st → store st' !! q = store st !! q).
Proof.
  unfold sink_contents. intros Hnd Hvs%mapM_Some Hne.
  destruct st as [sinks h]. simpl in *.
  destruct sinks as [|back l _] using rev_ind.
  { by apply Forall2_nil_inv_l in Hvs. }
  apply Forall2_app_inv_l in Hvs as (ws & wl & Hws & Hback & ->).
  apply Forall2_cons_inv_l in Hback as (v & wl' & Hv & Hnil & ->).
  apply Forall2_nil_inv_l in Hnil as ->.
  apply NoDup_app in Hnd as (Hnd & Hdisj & _).
  assert (back ∉ l) as Hbl by (intros Hin; apply (Hdisj _ Hin); set_solver).
  destruct (finalize_loop_spec back l ws h v) as (h' & Hloop & Hr & Hfreed & Hframe);
    [done..|].
  exists back, {| m_sinks := []; store := h' |}.
  unfold finalize. simpl. rewrite last_snoc, removelast_last, Hloop.
  split_and!; [done..| | |]; simpl.
  - by rewrite reverse_snoc.
  - intros p [Hp | ->%list_elem_of_singleton]%elem_of_app Hpb; [by apply Hfreed|done].
  - intros q Hq. apply Hframe; set_solver.
Qed.

(** *** Order of the operands *)

Lemma foldl_assoc_l `{!Assoc (=) combine} x y vs :
  foldl combine (combine x y) vs = combine x (foldl combine y vs).
Proof.
  revert y. induction vs as [|v vs IH]; intros y; simpl; [done|].
  by rewrite <-(assoc_L combine), IH.
Qed.

Lemma left_fold_reverse `{!Assoc (=) combine, !Comm (=) combine} vs :
  left_fold combine (reverse vs) = left_fold combine vs.
Proof.
  induction vs as [|x [|y vs] IH]; [done..|].
  rewrite reverse_cons. destruct (reverse (y :: vs)) as [|z r] eqn:Hrev.
  { by apply (f_equal length) in Hrev; rewrite length_reverse in Hrev. }
  simpl in *. injection IH as IH.
  rewrite foldl_app. simpl. rewrite IH.
  by rewrite (comm_L combine), <-foldl_assoc_l.
Qed.

(** *** Where the pooled pointers come from *)

Lemma get_sink_pool st :
  m_sinks st = option_list (head (m_sinks st)) ++ m_sinks (get_sink new_sink_init st).2.
Proof. unfold get_sink. by destruct (m_sinks st). Qed.

Lemma exec_pool_origin cs : ∀ st0 outs st,
  exec combine new_sink_init cs st0 = Some (outs, st) →
  ∀ p, p ∈ m_sinks st → p ∈ m_sinks st0 ∨ ReturnSink p ∈ cs.
Proof.
  induction cs as [|c cs IH]; intros st0 outs st; simpl.
  { intros [= _ <-] p Hp. by left. }
  destruct (run_call _ _ c st0) as [[out st1]|] eqn:Hc; [|done].
  destruct (exec _ _ cs st1) as [[outs' st2]|] eqn:Hcs; [|done].
  intros [= _ <-] p Hp.
  destruct (IH _ _ _ Hcs p Hp) as [Hp1 | Hret]; [|right; by right].
  destruct c as [|q| |q v]; simpl in Hc.
  - destruct (get_sink _ st0) as [ptr st'] eqn:Hget. injection Hc as _ <-.
    left. rewrite (get_sink_pool st0), Hget. set_solver.
  - injection Hc as _ <-. simpl in Hp1.
    apply elem_of_app in Hp1 as [Hp1 | ->%list_elem_of_singleton]; [by left|].
    right. left.
  - destruct (finalize _ _ st0) as [[r st']|] eqn:Hfin; [|done].
    injection Hc as _ <-. apply finalize_drains in Hfin.
    rewrite Hfin in Hp1. by apply elem_of_nil in Hp1.
  - injection Hc as _ <-. by left.
Qed.

(** *** Sequences of releases and acquisitions *)

Lemma exec_app cs1 cs2 st :
  exec combine new_sink_init (cs1 ++ cs2) st =
  '(outs1, st1) ← exec combine new_sink_init cs1 st;
  '(outs2, st2) ← exec combine new_sink_init cs2 st1;
  Some (outs1 ++ outs2, st2).
Proof.
  revert st. induction cs1 as [|c cs1 IH]; intros st; simpl.
  - by destruct (exec _ _ cs2 st) as [[outs2 st2]|].
  - destruct (run_call _ _ c st) as [[out st1]|]; simpl; [|done].
    rewrite IH. destruct (exec _ _ cs1 st1) as [[outs1 st1']|]; simpl; [|done].
    destruct (exec _ _ cs2 st1') as [[outs2 st2]|]; simpl; [|done].
    by rewrite app_assoc.
Qed.

Lemma exec_return_sinks ps : ∀ l h,
  exec combine new_sink_init (ReturnSink <$> ps) {| m_sinks := l; store := h |}
  = Some ([], {| m_sinks := l ++ ps; store := h |}).
Proof.
  induction ps as [|p ps IH]; intros l h; simpl.
  - by rewrite app_nil_r.
  - unfold return_sink. simpl. rewrite IH. by rewrite <-app_assoc.
Qed.

Lemma exec_get_sinks ps : ∀ l h,
  exec combine new_sink_init (replicate (length ps) GetSink)
    {| m_sinks := ps ++ l; store := h |}
  = Some (ps, {| m_sinks := l; store := h |}).
Proof.
  induction ps as [|p ps IH]; intros l h; simpl; [done|].
  unfold get_sink. simpl. by rewrite IH.
Qed.

(** From any pool, [n] releases and then [n] acquisitions hand out the [n]
    pointers at the front of the queue and leave the rest. *)
Lemma exec_release_acquire st ps :
  exec combine new_sink_init (fmap ReturnSink ps ++ replicate (length ps) GetSink) st
  = Some (take (length ps) (m_sinks st ++ ps),
          {| m_sinks := drop (length ps) (m_sinks st ++ ps); store := store st |}).
Proof.
  destruct st as [l h]. simpl.
  rewrite exec_app, exec_return_sinks. simpl.
  pose proof (take_drop (length ps) (l ++ ps)) as Hsplit.
  assert (length (take (length ps) (l ++ ps)) = length ps) as Hlen.
  { rewrite length_take, length_app. lia. }
  rewrite <-Hsplit at 1. rewrite <-Hlen at 1. by rewrite exec_get_sinks.
Qed.

(** ** The claims on [statistics_sink] *)

(** C1 (as amended): on a pool of pairwise distinct live sinks [s1..sn],
    [n >= 1], [finalize] returns the sink that was at the back, and that sink
    then holds [sn + ... + s2 + s1], the left fold of the contents taken from
    the back of the pool to its front; this is [s1 + s2 + ... + sn] when the
    combine is commutative as well as associative. *)
Theorem finalize_reverse_left_fold st vs :
  NoDup (m_sinks st) → sink_contents st = Some vs → vs ≠ [] →
  ∃ result st',
    finalize combine new_sink_init st = Some (result, st')
    ∧ last (m_sinks st) = Some result
    ∧ store st' !! result = left_fold combine (reverse vs)
    ∧ (Assoc (=) combine → Comm (=) combine →
       store st' !! result = left_fold combine vs).
Proof.
  intros Hnd Hvs Hne.
  destruct (finalize_spec st vs) as (result & st' & Hfin & Hlast & _ & Hres & _);
    [done..|].
  exists result, st'. split_and!; [done..|].
  intros ? ?. by rewrite Hres, left_fold_reverse.
Qed.

(** C2: after any sequence of calls on a new [statistics_sink], [get_sink]
    on a non-empty pool returns a pointer that an earlier [return_sink]
    handed back, namely the front of the pool, and pops it; on an empty pool
    it returns the object made by [new_sink()], at an address that was not
    live, and the pool stays empty.  Either way the returned pointer is no
    longer pooled (as long as no pointer was pooled twice). *)
Theorem get_sink_reuses_or_constructs h0 cs outs st :
  exec combine new_sink_init cs (statistics_sink h0) = Some (outs, st) →
  ∃ ptr st',
    get_sink new_sink_init st = (ptr, st')
    ∧ (m_sinks st ≠ [] →
       ReturnSink ptr ∈ cs ∧ m_sinks st = ptr :: m_sinks st'
       ∧ store st' = store st)
    ∧ (m_sinks st = [] →
       (ptr, store st') = new_sink new_sink_init (store st)
       ∧ store st !! ptr = None ∧ store st' !! ptr = Some new_sink_init
       ∧ m_sinks st' = [])
    ∧ (NoDup (m_sinks st) → ptr ∉ m_sinks st').
Proof.
  intros Hexec. pose proof (exec_pool_origin _ _ _ _ Hexec) as Horigin.
  unfold get_sink. destruct (m_sinks st) as [|p rest] eqn:Hpool; simpl.
  - eexists _, _. split; [done|]. simpl. split_and!; [done| |intros _; apply not_elem_of_nil].
    intros _. split_and!; [done| |by rewrite lookup_insert_eq|done].
    apply not_elem_of_dom, is_fresh.
  - exists p, {| m_sinks := rest; store := store st |}. simpl.
    split_and!; [done| |done|by intros ?%NoDup_cons_1_1].
    intros _. split_and!; [|done..].
    destruct (Horigin p) as [Hp | Hp]; [left| |done].
    by apply elem_of_nil in Hp.
Qed.

(** C3: on a pool of pairwise distinct live sinks [finalize] returns, and
    then the pool is empty: every sink that was pooled has been consumed, the
    one at the back as the returned result, which holds the combination of
    all their contents, and every other one freed; the next [get_sink] finds
    nothing to reuse and constructs an object. *)
Theorem finalize_empties_pool st vs :
  NoDup (m_sinks st) → sink_contents st = Some vs →
  ∃ result st',
    finalize combine new_sink_init st = Some (result, st')
    ∧ m_sinks st' = []
    ∧ (∀ p, p ∈ m_sinks st → p ≠ result → store st' !! p = None)
    ∧ (vs ≠ [] → last (m_sinks st) = Some result
                 ∧ store st' !! result = left_fold combine (reverse vs))
    ∧ get_sink new_sink_init st'
      = ((new_sink new_sink_init (store st')).1,
         {| m_sinks := []; store := (new_sink new_sink_init (store st')).2 |}).
Proof.
  intros Hnd Hvs. destruct (decide (vs = [])) as [-> | Hne].
  - apply mapM_Some, Forall2_nil_inv_r in Hvs.
    unfold finalize, get_sink. rewrite Hvs. simpl.
    eexists _, _. split; [done|]. simpl. split_and!; [done| |done..].
    intros p Hp. by apply elem_of_nil in Hp.
  - destruct (finalize_spec st vs)
      as (result & st' & Hfin & Hlast & Hpool & Hres & Hfreed & _); [done..|].
    exists result, st'. split_and!; [done..|].
    unfold get_sink. by rewrite Hpool.
Qed.

(** C8: [finalize] on an empty pool does not fail; it returns the object
    made by [new_sink()], at an address that was not live, and the pool stays
    empty. *)
Theorem finalize_empty_pool st :
  m_sinks st = [] →
  ∃ ptr h,
    finalize combine new_sink_init st = Some (ptr, {| m_sinks := []; store := h |})
    ∧ (ptr, h) = new_sink new_sink_init (store st)
    ∧ store st !! ptr = None
    ∧ h = <[ptr := new_sink_init]> (store st).
Proof.
  intros Hpool. unfold finalize. rewrite Hpool. simpl.
  eexists _, _. split_and!; [done..| |done].
  apply not_elem_of_dom, is_fresh.
Qed.

(** C9: the pool is a queue of pointers: [return_sink] appends its argument,
    [get_sink] pops and returns the front; [n] releases followed by [n]
    acquisitions hand out the first [n] pointers of the queue.  Starting from
    an empty pool these are exactly the released pointers, in release order,
    and the sink is left as it was; in particular [get_sink] after
    [return_sink p] returns [p] itself. *)
Theorem sink_pool_fifo st ps p :
  m_sinks (return_sink p st) = m_sinks st ++ [p]
  ∧ (∀ q rest, m_sinks st = q :: rest →
       get_sink new_sink_init st = (q, {| m_sinks := rest; store := store st |}))
  ∧ exec combine new_sink_init
      (fmap ReturnSink ps ++ replicate (length ps) GetSink) st
    = Some (take (length ps) (m_sinks st ++ ps),
            {| m_sinks := drop (length ps) (m_sinks st ++ ps); store := store st |})
  ∧ (m_sinks st = [] →
       exec combine new_sink_init
         (fmap ReturnSink ps ++ replicate (length ps) GetSink) st
       = Some (ps, st)
       ∧ get_sink new_sink_init (return_sink p st) = (p, st)).
Proof.
  split_and!.
  - done.
  - intros q rest Hpool. unfold get_sink. by rewrite Hpool.
  - apply exec_release_acquire.
  - intros Hpool. destruct st as [l h]. simpl in Hpool. subst l.
    split; [|done]. rewrite exec_release_acquire. simpl.
    by rewrite take_ge, drop_ge.
Qed.

End sink_facts.

(** *** Instances *)

Lemma finalize_reverse_left_fold_witness :
  let st := {| Sink.m_sinks := [1; 2; 3]%positive;
               Sink.store := {[1%positive := [10]; 2%positive := [20];
                               3%positive := [30]]} |} in
  let vs := [[10]; [20]; [30]] in
  ∃ result st',
    Sink.finalize app [0] st = Some (result, st')
    ∧ last (Sink.m_sinks st) = Some result
    ∧ Sink.store st' !! result = Sink.left_fold app (reverse vs)
    ∧ (Assoc (=) (@app nat) → Comm (=) (@app nat) →
       Sink.store st' !! result = Sink.left_fold app vs).
Proof.
  simpl.
  apply (finalize_reverse_left_fold app [0]
           {| Sink.m_sinks := [1; 2; 3]%positive;
              Sink.store := {[1%positive := [10]; 2%positive := [20];
                              3%positive := [30]]} |}
           [[10]; [20]; [30]]).
  - apply (bool_decide_unpack _). vm_compute. exact I.
  - vm_compute. reflexivity.
  - discriminate.
Defined.

(** C1 as stated fails: with list concatenation, which is associative, the
    pool [s1 = [10], s2 = [20]] reduces to [s2 + s1 = [20; 10]], not to the
    left fold [s1 + s2 = [10; 20]]. *)
Lemma finalize_left_fold_counterexample :
  let st := {| Sink.m_sinks := [1; 2]%positive;
               Sink.store := {[1%positive := [10]; 2%positive := [20]]} |} in
  Assoc (=) (@app nat)
  ∧ NoDup (Sink.m_sinks st)
  ∧ Sink.sink_contents st = Some [[10]; [20]]
  ∧ Sink.left_fold app [[10]; [20]] = Some [10; 20]
  ∧ ∃ result st',
      Sink.finalize app [] st = Some (result, st')
      ∧ Sink.store st' !! result = Some [20; 10]
      ∧ Sink.store st' !! result ≠ Sink.left_fold app [[10]; [20]].
Proof.
  simpl. split_and!.
  - intros x y z. apply app_assoc.
  - apply (bool_decide_unpack _). vm_compute. exact I.
  - vm_compute. reflexivity.
  - reflexivity.
  - eexists _, _. split_and!.
    + vm_compute. reflexivity.
    + vm_compute. reflexivity.
    + vm_compute. discriminate.
Qed.

Lemma get_sink_reuses_or_constructs_witness :
  let cs := [Sink.GetSink; Sink.Mutate 1%positive [5]; Sink.ReturnSink 1%positive] in
  let st := {| Sink.m_sinks := [1%positive]; Sink.store := {[1%positive := [5]]} |} in
  Sink.exec app [0] cs (Sink.statistics_sink ∅) = Some ([1%positive], st)
  ∧ ∃ ptr st',
      Sink.get_sink [0] st = (ptr, st')
      ∧ (Sink.m_sinks st ≠ [] →
         Sink.ReturnSink ptr ∈ cs ∧ Sink.m_sinks st = ptr :: Sink.m_sinks st'
         ∧ Sink.store st' = Sink.store st)
      ∧ (Sink.m_sinks st = [] →
         (ptr, Sink.store st') = Sink.new_sink [0] (Sink.store st)
         ∧ Sink.store st !! ptr = None ∧ Sink.store st' !! ptr = Some [0]
         ∧ Sink.m_sinks st' = [])
      ∧ (NoDup (Sink.m_sinks st) → ptr ∉ Sink.m_sinks st').
Proof.
  simpl. split.
  - vm_compute. reflexivity.
  - apply (get_sink_reuses_or_constructs app [0] ∅
             [Sink.GetSink; Sink.Mutate 1%positive [5]; Sink.ReturnSink 1%positive]
             [1%positive]).
    vm_compute. reflexivity.
Defined.

Lemma finalize_empties_pool_witness :
  let st := {| Sink.m_sinks := [1; 2]%positive;
               Sink.store := {[1%positive := 10%Z; 2%positive := 20%Z]} |} in
  ∃ result st',
    Sink.finalize Z.add 0%Z st = Some (result, st')
    ∧ Sink.m_sinks st' = []
    ∧ (∀ p, p ∈ Sink.m_sinks st → p ≠ result → Sink.store st' !! p = None)
    ∧ ([10; 20]%Z ≠ [] → last (Sink.m_sinks st) = Some result
                          ∧ Sink.store st' !! result
                            = Sink.left_fold Z.add (reverse [10; 20]%Z))
    ∧ Sink.get_sink 0%Z st'
      = ((Sink.new_sink 0%Z (Sink.store st')).1,
         {| Sink.m_sinks := []; Sink.store := (Sink.new_sink 0%Z (Sink.store st')).2 |}).
Proof.
  simpl.
  apply (finalize_empties_pool Z.add 0%Z
           {| Sink.m_sinks := [1; 2]%positive;
              Sink.store := {[1%positive := 10%Z; 2%positive := 20%Z]} |}
           [10; 20]%Z).
  - apply (bool_decide_unpack _). vm_compute. exact I.
  - vm_compute. reflexivity.
Defined.

Lemma finalize_empty_pool_witness :
  let st := Sink.statistics_sink ({[5%positive := 7%Z]} : gmap positive Z) in
  Sink.m_sinks st = []
  ∧ ∃ ptr h,
      Sink.finalize Z.add 0%Z st = Some (ptr, {| Sink.m_sinks := []; Sink.store := h |})
      ∧ (ptr, h) = Sink.new_sink 0%Z (Sink.store st)
      ∧ Sink.store st !! ptr = None
      ∧ h = <[ptr := 0%Z]> (Sink.store st).
Proof.
  split; [reflexivity|].
  apply (finalize_empty_pool Z.add 0%Z (Sink.statistics_sink {[5%positive := 7%Z]})).
  reflexivity.
Defined.

(** Three sinks released into a new pool come back in the order of their
    release. *)
Example release_acquire_in_order :
  let st := Sink.statistics_sink (∅ : gmap positive Z) in
  Sink.exec Z.add 0%Z
    [Sink.ReturnSink 4%positive; Sink.ReturnSink 2%positive; Sink.ReturnSink 7%positive;
     Sink.GetSink; Sink.GetSink; Sink.GetSink] st
  = Some ([4; 2; 7]%positive, st).
Proof. vm_compute. reflexivity. Qed.

(** * Properties of the analytical steps *)

Section step_facts.

Import Step.

Context {chunk D : Type}.

Implicit Types (cls : step_class chunk D) (obj : step_object D).
Implicit Types (c : step_call chunk) (cs : list (step_call chunk)).

Lemma virtual_finalize_base cls obj : base (virtual_finalize cls obj) = base obj.
Proof. unfold virtual_finalize. by destruct (finalize_override cls). Qed.

Lemma virtual_process_base cls input obj :
  base (virtual_process cls input obj).1 = base obj.
Proof. unfold virtual_process. by destruct (process cls (fields obj) input). Qed.

Lemma run_step_call_base cls obj c : base (run_step_call cls obj c) = base obj.
Proof.
  destruct c; simpl; [apply virtual_process_base|apply virtual_finalize_base|done..].
Qed.

Lemma run_step_calls_base cls cs : ∀ obj, base (run_step_calls cls cs obj) = base obj.
Proof.
  unfold run_step_calls. induction cs as [|c cs IH]; intros obj; simpl; [done|].
  by rewrite IH, run_step_call_base.
Qed.

(** C4: a step constructed with ordering [o] and file-io flag [b] answers
    [get_ordering() = o] and [file_io() = b] after any sequence of calls of
    its member functions, whatever the derived class does in [process] and
    [finalize]. *)
Theorem descriptors_fixed_at_construction cls (o : ordering) (b : bool) (d : D) cs :
  get_ordering (base (run_step_calls cls cs
                        {| base := new_analytical_step o b; fields := d |})) = o
  ∧ file_io (base (run_step_calls cls cs
                     {| base := new_analytical_step o b; fields := d |})) = b.
Proof. by rewrite run_step_calls_base. Qed.

(** C5: a step class need not implement [finalize]: the base class has one,
    it does nothing, and calling [finalize] on an object of a class that does
    not override it leaves the whole object, descriptors and derived fields,
    as it was. *)
Theorem default_finalize_does_nothing
    (process_impl : D → option chunk → D * chunk_list) (s : analytical_step) obj :
  finalize s = s
  ∧ virtual_finalize {| process := process_impl; finalize_override := None |} obj = obj
  ∧ get_ordering (finalize s) = get_ordering s
  ∧ file_io (finalize s) = file_io s.
Proof. split_and!; [done| |done..]. by destruct obj. Qed.

End step_facts.

(** C10: a step constructed without the file-io argument has
    [file_io() = false]. *)
Theorem file_io_defaults_to_false (o : Step.ordering) :
  Step.file_io (Step.new_analytical_step_default o) = false
  ∧ Step.get_ordering (Step.new_analytical_step_default o) = o.
Proof. done. Qed.

(** * Properties of the dispatch *)

Section dispatch_facts.

Import Step Dispatch.

Implicit Types (s : scheduler) (w id : nat) (ids : list nat).

Lemma executing_io_lookup s w id :
  executing s !! w = Some id → executing_io s w ↔ step_file_io s id = true.
Proof.
  intros Hw. split; [|by exists id].
  intros (id' & Hw' & Hio). congruence.
Qed.

(** Queueing a step changes neither the registered steps nor who executes
    what, and it puts the step on the queue of its kind. *)
Lemma queue_analytical_step_inv s id :
  dispatch_inv s → dispatch_inv (queue_analytical_step s id).
Proof.
  intros (Hio & Hcalc & Hfree & Hone). unfold queue_analytical_step.
  destruct (m_steps s !! id) as [st|] eqn:Hid; [|done].
  destruct (file_io st) eqn:Hst.
  - split_and!; [|done..]. simpl. apply Forall_app. split; [done|].
    apply Forall_singleton. unfold step_file_io. simpl. by rewrite Hid.
  - split_and!; [done| |done..]. simpl. apply Forall_app. split; [done|].
    apply Forall_singleton. unfold step_file_io. simpl. by rewrite Hid.
Qed.

Lemma queue_analytical_steps_inv ids : ∀ s,
  dispatch_inv s → dispatch_inv (foldl queue_analytical_step s ids).
Proof.
  induction ids as [|id ids IH]; intros s Hs; simpl; [done|].
  by apply IH, queue_analytical_step_inv.
Qed.

Lemma claim_inv w s : dispatch_inv s → dispatch_inv (claim w s).
Proof.
  intros Hs. pose proof Hs as (Hio & Hcalc & Hfree & Hone). unfold claim.
  destruct (executing s !! w) as [?|] eqn:Hw; [done|].
  assert (∀ s', m_steps s' = m_steps s → m_queue_io s' = m_queue_io s →
                m_io_active s' = m_io_active s →
                (∃ id rest, m_queue_calc s = id :: rest ∧ m_queue_calc s' = rest
                            ∧ executing s' = <[w := id]> (executing s)) →
                dispatch_inv s') as Hcalc_claim.
  { intros s' Hsteps Hqio Hact (id & rest & Hq & Hq' & Hex).
    rewrite Hq in Hcalc. apply Forall_cons in Hcalc as [Hid Hrest].
    assert (∀ w', executing_io s' w' → executing_io s w') as Hsub.
    { intros w' (id' & Hw' & Hio'). rewrite Hex in Hw'.
      unfold step_file_io in Hio'. rewrite Hsteps in Hio'.
      destruct (decide (w = w')) as [<- | Hne].
      - rewrite lookup_insert_eq in Hw'. injection Hw' as <-.
        unfold step_file_io in Hid. congruence.
      - rewrite lookup_insert_ne in Hw' by done. by exists id'. }
    unfold dispatch_inv, step_file_io in *. rewrite Hsteps, Hqio, Hq', Hact.
    split_and!; [done..| |].
    - intros Hoff w' Hw'. by apply (Hfree Hoff w'), Hsub.
    - intros w1 w2 H1 H2. by apply Hone; apply Hsub. }
  destruct (m_io_active s) eqn:Hact.
  - destruct (m_queue_calc s) as [|id rest] eqn:Hq; [done|].
    apply Hcalc_claim; [done..|]. by exists id, rest.
  - destruct (m_queue_io s) as [|id rest] eqn:Hqio.
    + destruct (m_queue_calc s) as [|id rest] eqn:Hq; [done|].
      apply Hcalc_claim; [done..|]. by exists id, rest.
    + apply Forall_cons in Hio as [Hid Hrest].
      assert (∀ w', ¬ executing_io s w') as Hnone by (by apply Hfree).
      split_and!.
      * exact Hrest.
      * exact Hcalc.
      * done.
      * intros w1 w2 (id1 & Hw1 & Hio1) (id2 & Hw2 & Hio2). simpl in *.
        destruct (decide (w = w1)) as [<- | Hne1], (decide (w = w2)) as [<- | Hne2];
          [done| | |].
        -- rewrite lookup_insert_ne in Hw2 by done.
           destruct (Hnone w2). by exists id2.
        -- rewrite lookup_insert_ne in Hw1 by done.
           destruct (Hnone w1). by exists id1.
        -- rewrite lookup_insert_ne in Hw1 by done.
           destruct (Hnone w1). by exists id1.
Qed.

Lemma complete_inv w ids s : dispatch_inv s → dispatch_inv (complete w ids s).
Proof.
  intros Hs. pose proof Hs as (Hio & Hcalc & Hfree & Hone). unfold complete.
  destruct (executing s !! w) as [id|] eqn:Hw; [|done].
  apply queue_analytical_steps_inv.
  assert (∀ s', m_steps s' = m_steps s → executing s' = delete w (executing s) →
                ∀ w', executing_io s' w' → w' ≠ w ∧ executing_io s w') as Hsub.
  { intros s' Hsteps Hex w' (id' & Hw' & Hio'). rewrite Hex in Hw'.
    apply lookup_delete_Some in Hw' as [Hne Hw'].
    split; [done|]. exists id'. split; [done|].
    unfold step_file_io in *. by rewrite <-Hsteps. }
  split_and!.
  - exact Hio.
  - exact Hcalc.
  - simpl. intros Hoff w' Hw'.
    apply Hsub in Hw' as [Hne Hw']; [|done..].
    destruct (step_file_io s id) eqn:Hid.
    + apply Hne. apply Hone; [done|]. by exists id.
    + by apply (Hfree Hoff w').
  - intros w1 w2 H1 H2.
    apply Hsub in H1 as [_ H1]; [|done..]. apply Hsub in H2 as [_ H2]; [|done..].
    by apply Hone.
Qed.

Lemma start_inv (steps : list analytical_step) : dispatch_inv (start steps).
Proof.
  apply queue_analytical_step_inv. split_and!; simpl; [done..| |].
  - intros _ w (id & Hw & _). simpl in Hw. by rewrite lookup_empty in Hw.
  - intros w1 w2 (id & Hw & _). simpl in Hw. by rewrite lookup_empty in Hw.
Qed.

Lemma step_event_inv s (e : event) : dispatch_inv s → dispatch_inv (step_event s e).
Proof. destruct e as [w | w ids]; [apply claim_inv | apply complete_inv]. Qed.

Lemma run_inv (steps : list analytical_step) (es : list event) :
  dispatch_inv (run steps es).
Proof.
  unfold run. induction es as [|e es IH] using rev_ind; simpl.
  - apply start_inv.
  - rewrite foldl_app. simpl. by apply step_event_inv.
Qed.

Lemma elem_of_io_workers s w id :
  io_workers s !! w = Some id ↔ executing s !! w = Some id ∧ step_file_io s id = true.
Proof. unfold io_workers. by rewrite map_lookup_filter_Some. Qed.

Lemma map_size_le_1 (m : gmap nat nat) :
  (∀ i j x y, m !! i = Some x → m !! j = Some y → i = j) → size m ≤ 1.
Proof.
  destruct m as [|i x m Hi _] using map_ind; intros Hone.
  - rewrite map_size_empty. lia.
  - rewrite map_size_insert_None by done.
    destruct (decide (m = ∅)) as [-> | Hne]; [rewrite map_size_empty; lia|].
    apply map_choose in Hne as (j & y & Hj).
    assert (i = j) as <-; [|congruence].
    apply (Hone i j x y); [apply lookup_insert_eq|].
    rewrite lookup_insert_ne; [done|]. intros <-. congruence.
Qed.

End dispatch_facts.

(** C6: in every state that the workers reach, in any interleaving of their
    claims and completions, at most one worker is executing a step whose
    [file_io()] is true; and steps without file io do overlap with each other
    and with that one step: a run exists in which one worker executes a step
    with file io while two others execute steps without. *)
Theorem io_steps_mutually_exclusive :
  (∀ (steps : list Step.analytical_step) (es : list Dispatch.event),
     size (Dispatch.io_workers (Dispatch.run steps es)) ≤ 1
     ∧ ∀ w1 w2,
         Dispatch.executing_io (Dispatch.run steps es) w1 →
         Dispatch.executing_io (Dispatch.run steps es) w2 → w1 = w2)
  ∧ (∃ (steps : list Step.analytical_step) (es : list Dispatch.event),
       size (Dispatch.io_workers (Dispatch.run steps es)) = 1
       ∧ size (Dispatch.calc_workers (Dispatch.run steps es)) = 2).
Proof.
  split.
  - intros steps es.
    destruct (run_inv steps es) as (_ & _ & _ & Hone). split; [|done].
    apply map_size_le_1.
    intros w1 w2 id1 id2 H1%elem_of_io_workers H2%elem_of_io_workers.
    apply Hone; [by exists id1 | by exists id2].
  - exists [Step.new_analytical_step Step.ordered true;
            Step.new_analytical_step Step.unordered false;
            Step.new_analytical_step Step.ordered true],
           [Dispatch.Claim 0; Dispatch.Complete 0 [1; 1; 2; 2];
            Dispatch.Claim 1; Dispatch.Claim 2; Dispatch.Claim 3; Dispatch.Claim 4].
    split; vm_compute; reflexivity.
Qed.

(** * Properties of ordered delivery *)

Section ordered_facts.

Import Ordered.

Context {chunk : Type}.

Implicit Types (p : pipeline chunk) (t a b : tagged chunk) (e : event chunk).

Lemma start_pipeline_inv : pipeline_inv (@start chunk).
Proof.
  split_and!; simpl; [done| | | |lia|done].
  - intros i t Hi. by rewrite lookup_nil in Hi.
  - intros t Ht. by apply elem_of_nil in Ht.
  - intros k t Hk. by rewrite lookup_empty in Hk.
Qed.

Lemma emit_inv p c : pipeline_inv p → pipeline_inv (step_event p (Emit c)).
Proof.
  intros (Hlen & Hseq & Hfly & Hbuf & Hnext & Hlog).
  split_and!; simpl.
  - rewrite length_app. simpl. lia.
  - intros i t [[_ Hi] | [-> <-]]%lookup_snoc_Some; [by apply Hseq|]. by simpl.
  - intros t [Ht | ->%list_elem_of_singleton]%elem_of_app.
    + by apply lookup_app_l_Some, Hfly.
    + simpl. by apply list_lookup_middle.
  - intros k t Hk. by apply lookup_app_l_Some, Hbuf.
  - rewrite length_app. lia.
  - by rewrite take_app_le.
Qed.

Lemma deliver_inv p i : pipeline_inv p → pipeline_inv (step_event p (Deliver i)).
Proof.
  intros Hp. pose proof Hp as (Hlen & Hseq & Hfly & Hbuf & Hnext & Hlog). simpl.
  destruct (in_flight p !! i) as [t|] eqn:Hi; [|done].
  split_and!; simpl; [done..| | |done|done].
  - intros t' Ht'%list_elem_of_delete_inv. by apply Hfly.
  - intros k t' [[<- <-] | [_ Hk]]%lookup_insert_Some.
    + apply Hfly. by eapply list_elem_of_lookup_2.
    + by apply Hbuf.
Qed.

Lemma dispatch_event_inv p : pipeline_inv p → pipeline_inv (step_event p Dispatch).
Proof.
  intros Hp. pose proof Hp as (Hlen & Hseq & Hfly & Hbuf & Hnext & Hlog). simpl.
  unfold dispatch.
  destruct (input_buffer (consumer p) !! next_expected_seq (consumer p))
    as [t|] eqn:Ht; [|done].
  apply Hbuf in Ht as Hem.
  split_and!; cbn [m_chunk_counter emitted in_flight consumer consumed
                   input_buffer next_expected_seq]; [done..| | |].
  - intros k t' [_ Hk]%lookup_delete_Some. by apply Hbuf.
  - by apply lookup_lt_Some in Hem.
  - rewrite (take_S_r _ _ _ Hem), seq_S, zip_with_app, <-Hlog; [done|].
    by rewrite length_take_le, length_seq.
Qed.

Lemma step_event_pipeline_inv p e : pipeline_inv p → pipeline_inv (step_event p e).
Proof.
  destruct e as [c | i |]; [apply emit_inv | apply deliver_inv | apply dispatch_event_inv].
Qed.

Lemma run_pipeline_inv (es : list (event chunk)) : pipeline_inv (run es).
Proof.
  unfold run. induction es as [|e es IH] using rev_ind; simpl.
  - apply start_pipeline_inv.
  - rewrite foldl_app. simpl. by apply step_event_pipeline_inv.
Qed.

(** The [i]-th input of the ordered step is the [i]-th chunk of the source,
    it carries the sequence number [i], and [next_expected_seq] was [i] when
    it was consumed. *)
Lemma consumed_lookup (es : list (event chunk)) i a (s : nat) :
  consumed (run es) !! i = Some (a, s) →
  emitted (run es) !! i = Some a ∧ chunk_seq a = i ∧ s = i.
Proof.
  destruct (run_pipeline_inv es) as (_ & Hseq & _ & _ & _ & ->).
  intros [[Ha _]%lookup_take_Some [-> _]%lookup_seq]%lookup_zip_Some.
  split_and!; [done| |done]. by apply Hseq.
Qed.

(** C7: in every run, the inputs passed to the ordered step are the chunks
    of the source in the ascending order of their sequence numbers
    [0, 1, 2, ...], without gap or repetition: each input's sequence number
    equals [next_expected_seq] at the moment it is consumed, and of two
    inputs consumed one after the other the second has the sequence number
    of the first plus one (so an input consumed at any time before another
    has a smaller one). *)
Theorem ordered_step_consumes_in_sequence (es : list (event chunk)) :
  consumed (run es)
  = zip (take (next_expected_seq (consumer (run es))) (emitted (run es)))
        (seq 0 (next_expected_seq (consumer (run es))))
  ∧ (∀ i a s, consumed (run es) !! i = Some (a, s) →
       emitted (run es) !! i = Some a ∧ chunk_seq a = s)
  ∧ (∀ i a sa b sb,
       consumed (run es) !! i = Some (a, sa) →
       consumed (run es) !! S i = Some (b, sb) →
       chunk_seq a + 1 = chunk_seq b)
  ∧ (∀ i j a sa b sb,
       consumed (run es) !! i = Some (a, sa) →
       consumed (run es) !! j = Some (b, sb) →
       i < j → chunk_seq a < chunk_seq b).
Proof.
  split_and!.
  - by destruct (run_pipeline_inv es) as (_ & _ & _ & _ & _ & ->).
  - intros i a s (Ha & Hi & ->)%consumed_lookup. done.
  - intros i a sa b sb (_ & Ha & _)%consumed_lookup (_ & Hb & _)%consumed_lookup. lia.
  - intros i j a sa b sb (_ & Ha & _)%consumed_lookup (_ & Hb & _)%consumed_lookup. lia.
Qed.

End ordered_facts.

(** * Lifetime of the sinks: destruction, ownership, clients *)

Section sink_use_facts.

Import Sink SinkUse.

#[local] Set Warnings "-clear-no-such-hyp".

Context {T : Type} (combine : T → T → T) (new_sink_init : T).

Implicit Types (st : sink_state T) (h : gmap loc T) (l : list loc).
Implicit Types (ptr result p q : loc) (held : gset loc) (σ : client_state (T:=T)).

(** *** The destructor *)

Lemma delete_sinks_spec l : ∀ h,
  NoDup l → (∀ p, p ∈ l → is_Some (h !! p)) →
  ∃ h', delete_sinks l h = Some h'
        ∧ (∀ p, p ∈ l → h' !! p = None)
        ∧ (∀ q, q ∉ l → h' !! q = h !! q).
Proof.
  induction l as [|p l IH]; intros h Hnd Hlive; simpl.
  - exists h. split_and!; [done| |done]. intros p Hp. by apply elem_of_nil in Hp.
  - apply NoDup_cons in Hnd as [Hp Hnd].
    destruct (Hlive p) as [v Hv]; [left|]. unfold delete_obj. rewrite Hv.
    destruct (IH (delete p h)) as (h' & Hdel & Hfreed & Hframe); [done| |].
    { intros q Hq. rewrite lookup_delete_ne by (by intros ->).
      apply Hlive. by right. }
    exists h'. split_and!; [done| |].
    + intros q [-> | Hq]%elem_of_cons; [|by apply Hfreed].
      rewrite Hframe by done. apply lookup_delete_eq.
    + intros q [Hqp Hq]%not_elem_of_cons.
      rewrite Hframe by done. by apply lookup_delete_ne.
Qed.

Lemma delete_sinks_defined l : ∀ h,
  is_Some (delete_sinks l h) → NoDup l ∧ ∀ p, p ∈ l → is_Some (h !! p).
Proof.
  induction l as [|p l IH]; intros h; simpl.
  - intros _. split; [constructor|]. intros p Hp. by apply elem_of_nil in Hp.
  - unfold delete_obj. destruct (h !! p) as [v|] eqn:Hv; [|by intros [? ?]].
    intros [Hnd Hlive]%IH.
    assert (p ∉ l) as Hp.
    { intros [w Hw]%Hlive. by rewrite lookup_delete_eq in Hw. }
    split; [by constructor|].
    intros q [-> | Hq]%elem_of_cons; [by exists v|].
    destruct (Hlive q Hq) as [w Hw].
    apply lookup_delete_Some in Hw as [_ Hw]. by exists w.
Qed.

(** X1: destroying a sink whose pooled pointers are live and pairwise
    distinct frees exactly the pooled sinks: each of them is gone and every
    other object, such as a sink a client still holds, is untouched. *)
Theorem destroy_frees_pool st :
  NoDup (m_sinks st) → (∀ p, p ∈ m_sinks st → is_Some (store st !! p)) →
  ∃ h', destroy st = Some h'
        ∧ (∀ p, p ∈ m_sinks st → h' !! p = None)
        ∧ (∀ q, q ∉ m_sinks st → h' !! q = store st !! q).
Proof. apply delete_sinks_spec. Qed.

(** X2: the destructor is defined exactly when the pooled pointers are live
    and pairwise distinct: a pointer handed back twice, or one that was freed
    elsewhere, makes it delete an object that is not live. *)
Theorem destroy_defined_iff st :
  is_Some (destroy st)
  ↔ NoDup (m_sinks st) ∧ ∀ p, p ∈ m_sinks st → is_Some (store st !! p).
Proof.
  split; [apply delete_sinks_defined|].
  intros [Hnd Hlive]. destruct (delete_sinks_spec _ _ Hnd Hlive) as (h' & Hdel & _).
  by exists h'.
Qed.

(** *** [finalize] and ownership *)

Lemma live_sink_contents st :
  (∀ p, p ∈ m_sinks st → is_Some (store st !! p)) →
  ∃ vs, sink_contents st = Some vs ∧ (vs = [] ↔ m_sinks st = []).
Proof.
  intros Hlive. unfold sink_contents.
  destruct (mapM (λ ptr, store st !! ptr) (m_sinks st)) as [vs|] eqn:Hvs.
  - exists vs. split; [done|]. apply mapM_Some, Forall2_length in Hvs.
    split; intros Hnil; rewrite Hnil in Hvs; by apply nil_length_inv.
  - assert (is_Some (mapM (λ ptr, store st !! ptr) (m_sinks st))) as [? ?];
      [|congruence].
    apply mapM_is_Some, Forall_forall. intros p Hp. by apply Hlive.
Qed.

(** What [finalize] does to the store, whether the pool is empty or not. *)
Lemma finalize_cases st :
  NoDup (m_sinks st) → (∀ p, p ∈ m_sinks st → is_Some (store st !! p)) →
  ∃ result st',
    finalize combine new_sink_init st = Some (result, st')
    ∧ m_sinks st' = []
    ∧ is_Some (store st' !! result)
    ∧ (result ∈ m_sinks st ∨ (m_sinks st = [] ∧ store st !! result = None
                               ∧ store st' !! result = Some new_sink_init))
    ∧ (∀ p, p ∈ m_sinks st → p ≠ result → store st' !! p = None)
    ∧ (∀ q, q ∉ m_sinks st → q ≠ result → store st' !! q = store st !! q).
Proof.
  intros Hnd Hlive. destruct (live_sink_contents st Hlive) as (vs & Hvs & Hnil).
  destruct (decide (vs = [])) as [Hvs0 | Hne].
  - apply Hnil in Hvs0. unfold finalize. rewrite Hvs0. simpl.
    eexists _, _. split; [done|]. simpl.
    assert (store st !! fresh (dom (store st)) = None) as Hfresh
      by apply not_elem_of_dom, is_fresh.
    split_and!; [done|by rewrite lookup_insert_eq| | |].
    + right. by rewrite lookup_insert_eq.
    + intros p Hp. by apply elem_of_nil in Hp.
    + intros q _ Hq. by rewrite lookup_insert_ne.
  - destruct (finalize_spec combine new_sink_init st vs)
      as (result & st' & Hfin & Hlast & Hpool & Hres & Hfreed & Hframe); [done..|].
    exists result, st'. split_and!; [done..| | |done|].
    + rewrite Hres. destruct (reverse vs) as [|x r] eqn:Hrev; [|by eexists].
      apply (f_equal length) in Hrev. rewrite length_reverse in Hrev.
      by apply nil_length_inv in Hrev.
    + left. apply last_Some in Hlast as [l' Hl].
      rewrite Hl, elem_of_app, list_elem_of_singleton. by right.
    + intros q Hq _. by apply Hframe.
Qed.

(** X3: the object that [finalize] returns belongs to the caller: the pool
    is empty afterwards, so destroying the sink deletes nothing and the
    result stays live. *)
Theorem finalize_result_outlives_sink st :
  NoDup (m_sinks st) → (∀ p, p ∈ m_sinks st → is_Some (store st !! p)) →
  ∃ result st',
    finalize combine new_sink_init st = Some (result, st')
    ∧ destroy st' = Some (store st')
    ∧ is_Some (store st' !! result).
Proof.
  intros Hnd Hlive.
  destruct (finalize_cases st Hnd Hlive) as (result & st' & Hfin & Hpool & Hres & _).
  exists result, st'. split_and!; [done| |done].
  unfold destroy. by rewrite Hpool.
Qed.

(** X4: the sink does not keep the total: a second [finalize] returns an
    object constructed by [new_sink()], different from the first result,
    and leaves the first result as it was. *)
Theorem finalize_twice st :
  NoDup (m_sinks st) → (∀ p, p ∈ m_sinks st → is_Some (store st !! p)) →
  ∃ result st' result2 st'',
    finalize combine new_sink_init st = Some (result, st')
    ∧ finalize combine new_sink_init st' = Some (result2, st'')
    ∧ result2 ≠ result
    ∧ store st'' !! result2 = Some new_sink_init
    ∧ store st'' !! result = store st' !! result.
Proof.
  intros Hnd Hlive.
  destruct (finalize_cases st Hnd Hlive) as (result & st' & Hfin & Hpool & Hres & _).
  exists result, st'. unfold finalize at 2. rewrite Hpool. simpl.
  assert (fresh (dom (store st')) ≠ result) as Hne.
  { intros Heq. apply elem_of_dom in Hres. rewrite <-Heq in Hres.
    by apply is_fresh in Hres. }
  eexists _, _. split_and!; [done..| |]; simpl.
  - by rewrite lookup_insert_eq.
  - by rewrite lookup_insert_ne.
Qed.

(** X5: [finalize] reads and frees pooled sinks only: the total it returns
    is computed from the contents of the pooled sinks alone (their fold from
    the back, or the content of a new sink when the pool is empty), and a
    live object that is not in the pool, such as a sink that a client has not
    handed back, is never the result and is neither freed nor changed. *)
Theorem finalize_leaves_unpooled st (vs : list T) :
  NoDup (m_sinks st) → sink_contents st = Some vs →
  ∃ result st',
    finalize combine new_sink_init st = Some (result, st')
    ∧ store st' !! result
      = match vs with
        | [] => Some new_sink_init
        | _ :: _ => left_fold combine (reverse vs)
        end
    ∧ ∀ q, q ∉ m_sinks st → is_Some (store st !! q) →
           q ≠ result ∧ store st' !! q = store st !! q.
Proof.
  intros Hnd Hvs. destruct vs as [|v vs].
  - apply mapM_Some, Forall2_nil_inv_r in Hvs.
    unfold finalize. rewrite Hvs. simpl.
    eexists _, _. split; [done|]. simpl. split; [by rewrite lookup_insert_eq|].
    intros q _ Hq.
    assert (q ≠ fresh (dom (store st))) as Hne.
    { intros ->. apply elem_of_dom in Hq. by apply is_fresh in Hq. }
    split; [done|]. by rewrite lookup_insert_ne.
  - destruct (finalize_spec combine new_sink_init st (v :: vs))
      as (result & st' & Hfin & Hlast & _ & Hres & _ & Hframe); [done..|].
    exists result, st'. split_and!; [done..|].
    intros q Hq _. split; [|by apply Hframe].
    intros ->. apply Hq. apply last_Some in Hlast as [l' Hl].
    rewrite Hl, elem_of_app, list_elem_of_singleton. by right.
Qed.

(** *** Order of release *)

Lemma foldl_combine_permutation `{!Assoc (=) combine, !Comm (=) combine}
    (vs ws : list T) :
  vs ≡ₚ ws → ∀ x, foldl combine x vs = foldl combine x ws.
Proof.
  induction 1 as [|v vs ws _ IH|v w vs|vs ws us _ IH1 _ IH2]; intros x; simpl.
  - done.
  - apply IH.
  - f_equal. by rewrite <-!(assoc_L combine), (comm_L combine w v).
  - by rewrite IH1.
Qed.

Lemma left_fold_permutation `{!Assoc (=) combine, !Comm (=) combine}
    (vs ws : list T) :
  vs ≡ₚ ws → left_fold combine vs = left_fold combine ws.
Proof.
  induction 1 as [|v vs ws Hperm _|v w vs|vs ws us _ IH1 _ IH2]; simpl.
  - done.
  - f_equal. by apply foldl_combine_permutation.
  - by rewrite (comm_L combine w v).
  - by rewrite IH1.
Qed.

(** X6: with an associative and commutative [+=], the total does not depend
    on the order in which the sinks were handed back: two pools whose
    contents are permutations of each other reduce to the same value. *)
Theorem finalize_order_independent `{!Assoc (=) combine, !Comm (=) combine}
    st1 st2 (vs1 vs2 : list T) :
  NoDup (m_sinks st1) → NoDup (m_sinks st2) →
  sink_contents st1 = Some vs1 → sink_contents st2 = Some vs2 →
  vs1 ≡ₚ vs2 → vs1 ≠ [] →
  ∃ r1 st1' r2 st2',
    finalize combine new_sink_init st1 = Some (r1, st1')
    ∧ finalize combine new_sink_init st2 = Some (r2, st2')
    ∧ store st1' !! r1 = store st2' !! r2
    ∧ store st1' !! r1 = left_fold combine vs1.
Proof.
  intros Hnd1 Hnd2 Hvs1 Hvs2 Hperm Hne1.
  assert (vs2 ≠ []) as Hne2.
  { intros ->. by apply Permutation_nil_r in Hperm. }
  destruct (finalize_spec combine new_sink_init st1 vs1)
    as (r1 & st1' & Hfin1 & _ & _ & Hres1 & _); [done..|].
  destruct (finalize_spec combine new_sink_init st2 vs2)
    as (r2 & st2' & Hfin2 & _ & _ & Hres2 & _); [done..|].
  exists r1, st1', r2, st2'. split_and!; [done..| |].
  - rewrite Hres1, Hres2, !left_fold_reverse by done.
    by apply left_fold_permutation.
  - by rewrite Hres1, left_fold_reverse.
Qed.

(** *** Clients that follow the protocol *)

Lemma get_sink_inv held st ptr st' :
  sink_inv (held, st) → get_sink new_sink_init st = (ptr, st') →
  (ptr ∉ held) ∧ (ptr ∉ m_sinks st') ∧ sink_inv ({[ptr]} ∪ held, st').
Proof.
  intros (Hnd & Hlive & Hheld & Hdisj). simpl in *. unfold get_sink, sink_inv.
  destruct (m_sinks st) as [|p rest] eqn:Hpool; simpl; intros [= <- <-].
  - assert (store st !! fresh (dom (store st)) = None) as Hfresh
      by apply not_elem_of_dom, is_fresh.
    split_and!; simpl.
    + intros [v Hv]%Hheld. congruence.
    + apply not_elem_of_nil.
    + constructor.
    + intros p Hp. by apply elem_of_nil in Hp.
    + intros p [->%elem_of_singleton | Hp]%elem_of_union.
      * by rewrite lookup_insert_eq.
      * apply lookup_insert_is_Some'. right. by apply Hheld.
    + intros p Hp. by apply elem_of_nil in Hp.
  - apply NoDup_cons in Hnd as [Hp Hnd].
    split_and!; simpl.
    + apply Hdisj. left.
    + done.
    + done.
    + intros q Hq. apply Hlive. by right.
    + intros q [->%elem_of_singleton | Hq]%elem_of_union; [|by apply Hheld].
      apply Hlive. left.
    + intros q Hq [->%elem_of_singleton | Hqh]%elem_of_union; [done|].
      apply (Hdisj q); [by right|done].
Qed.

Lemma client_step_inv σ (c : call T) σ' :
  sink_inv σ → client_step combine new_sink_init σ c σ' → sink_inv σ'.
Proof.
  intros Hinv Hstep.
  destruct Hstep as [held st ptr st' Hget | held st ptr Hptr
                    | held st result st' Hfin | held st ptr v st' Hptr Hmut].
  - by eapply get_sink_inv.
  - destruct Hinv as (Hnd & Hlive & Hheld & Hdisj). simpl in *.
    split_and!; simpl.
    + apply NoDup_app. split_and!; [done| |apply NoDup_singleton].
      intros q Hq ->%list_elem_of_singleton. by apply (Hdisj ptr).
    + intros q [Hq | ->%list_elem_of_singleton]%elem_of_app; [by apply Hlive|].
      by apply Hheld.
    + intros q [Hq _]%elem_of_difference. by apply Hheld.
    + intros q [Hq | ->%list_elem_of_singleton]%elem_of_app.
      * intros [Hqh _]%elem_of_difference. by apply (Hdisj q).
      * intros [_ Hne]%elem_of_difference. apply Hne. by apply elem_of_singleton.
  - destruct Hinv as (Hnd & Hlive & Hheld & Hdisj). simpl in *.
    destruct (finalize_cases st Hnd Hlive)
      as (r & st1 & Hfin' & Hpool & Hres & _ & _ & Hframe).
    rewrite Hfin in Hfin'. injection Hfin' as <- <-.
    split_and!; simpl; rewrite ?Hpool.
    + constructor.
    + intros q Hq. by apply elem_of_nil in Hq.
    + intros q [->%elem_of_singleton | Hq]%elem_of_union; [done|].
      destruct (decide (q = result)) as [-> | Hne]; [done|].
      rewrite Hframe; [by apply Hheld| |done].
      intros Hqp. by apply (Hdisj q).
    + intros q Hq. by apply elem_of_nil in Hq.
  - destruct Hinv as (Hnd & Hlive & Hheld & Hdisj). simpl in *.
    injection Hmut as <-. destruct (Hheld ptr Hptr) as [w Hw]. rewrite Hw.
    split_and!; simpl; [done| | |done].
    + intros q Hq. apply lookup_insert_is_Some'. right. by apply Hlive.
    + intros q Hq. apply lookup_insert_is_Some'. right. by apply Hheld.
Qed.

Lemma client_run_inv σ (cs : list (call T)) σ' :
  sink_inv σ → client_run combine new_sink_init σ cs σ' → sink_inv σ'.
Proof.
  intros Hinv Hrun. induction Hrun as [σ | σ1 c σ2 cs σ3 Hstep _ IH]; [done|].
  by eapply IH, client_step_inv.
Qed.

(** X7: a client that follows the protocol never runs into undefined
    behaviour: after any run from a good state, every call the protocol
    allows is defined ([finalize] in particular) and is a step of the
    protocol, and the state after the run is good again. *)
Theorem protocol_is_safe σ (cs : list (call T)) σ' (c : call T) :
  sink_inv σ → client_run combine new_sink_init σ cs σ' → allowed σ'.1 c →
  sink_inv σ'
  ∧ is_Some (run_call combine new_sink_init c σ'.2)
  ∧ ∃ σ'', client_step combine new_sink_init σ' c σ''.
Proof.
  intros Hinv Hrun Hc. pose proof (client_run_inv _ _ _ Hinv Hrun) as Hinv'.
  split; [done|]. destruct σ' as [held st].
  pose proof Hinv' as (Hnd & Hlive & _). simpl in *.
  destruct c as [|ptr| |ptr v]; simpl in *.
  - destruct (get_sink new_sink_init st) as [p st'] eqn:Hget.
    split; [by eexists|]. eexists. by constructor.
  - split; [by eexists|]. eexists. by constructor.
  - destruct (finalize_cases st Hnd Hlive) as (r & st' & Hfin & _).
    rewrite Hfin. split; [by eexists|]. eexists. by constructor.
  - split; [by eexists|]. eexists. by constructor.
Qed.

(** X8: a sink is never in two hands: after any run of protocol-following
    clients, [get_sink] returns a pointer that no client holds, and takes
    it out of the pool. *)
Theorem get_sink_exclusive σ (cs : list (call T)) held st ptr st' :
  sink_inv σ → client_run combine new_sink_init σ cs (held, st) →
  get_sink new_sink_init st = (ptr, st') →
  (ptr ∉ held) ∧ (ptr ∉ m_sinks st').
Proof.
  intros Hinv Hrun Hget. pose proof (client_run_inv _ _ _ Hinv Hrun) as Hinv'.
  destruct (get_sink_inv _ _ _ _ Hinv' Hget) as (? & ? & _). done.
Qed.

(** *** No object is lost *)

Lemma client_step_accounted σ (c : call T) σ' :
  sink_inv σ → dom (store σ.2) = σ.1 ∪ list_to_set (m_sinks σ.2) →
  client_step combine new_sink_init σ c σ' →
  dom (store σ'.2) = σ'.1 ∪ list_to_set (m_sinks σ'.2).
Proof.
  intros Hinv Hdom Hstep.
  destruct Hstep as [held st ptr st' Hget | held st ptr Hptr
                    | held st result st' Hfin | held st ptr v st' Hptr Hmut];
    simpl in *.
  - unfold get_sink in Hget.
    destruct (m_sinks st) as [|p rest] eqn:Hpool; simpl in Hget;
      injection Hget as <- <-; simpl.
    + rewrite dom_insert_L, Hdom. set_solver.
    + rewrite Hdom. set_solver.
  - rewrite Hdom, list_to_set_app_L. apply set_eq. intros q.
    destruct (decide (q = ptr)) as [-> | Hne]; set_solver.
  - destruct Hinv as (Hnd & Hlive & Hheld & Hdisj). simpl in *.
    destruct (finalize_cases st Hnd Hlive)
      as (r & st1 & Hfin' & Hpool & Hres & _ & Hfreed & Hframe).
    rewrite Hfin in Hfin'. injection Hfin' as <- <-.
    rewrite Hpool. apply set_eq. intros q. rewrite elem_of_dom.
    destruct (decide (q = result)) as [-> | Hne]; [set_solver|].
    destruct (decide (q ∈ m_sinks st)) as [Hq | Hq].
    + rewrite Hfreed by done. split; [by intros [? ?]|].
      intros [[?%elem_of_singleton | Hqh]%elem_of_union | ?]%elem_of_union;
        [done| |set_solver]. by destruct (Hdisj q).
    + rewrite Hframe by done. rewrite <-elem_of_dom, Hdom. set_solver.
  - injection Hmut as <-. destruct Hinv as (_ & _ & Hheld & _). simpl in *.
    destruct (Hheld ptr Hptr) as [w Hw]. rewrite Hw. simpl.
    rewrite dom_insert_L, Hdom. set_solver.
Qed.

Lemma new_sink_inv h : sink_inv (dom h, statistics_sink h).
Proof.
  split_and!; simpl.
  - constructor.
  - intros p Hp. by apply elem_of_nil in Hp.
  - intros p Hp. by apply elem_of_dom.
  - intros p Hp. by apply elem_of_nil in Hp.
Qed.

Lemma client_run_accounted h0 (cs : list (call T)) held st :
  client_run combine new_sink_init (dom h0, statistics_sink h0) cs (held, st) →
  sink_inv (held, st) ∧ dom (store st) = held ∪ list_to_set (m_sinks st).
Proof.
  intros Hrun.
  remember (dom h0, statistics_sink h0) as σ0 eqn:Hσ0.
  remember (held, st) as σ eqn:Hσ.
  assert (sink_inv σ0 ∧ dom (store σ0.2) = σ0.1 ∪ list_to_set (m_sinks σ0.2))
    as Hstart.
  { subst σ0. split; [apply new_sink_inv|]. simpl. set_solver. }
  clear Hσ0. revert held st Hσ.
  induction Hrun as [σ | σ1 c σ2 cs σ3 Hstep _ IH]; intros held st ->; [done|].
  destruct Hstart as [Hinv1 Hdom1]. eapply IH; [|done].
  split; [by eapply client_step_inv|by eapply client_step_accounted].
Qed.

(** X9: no sink is lost and none is freed behind a client's back: when the
    clients of a new sink follow the protocol, the live objects are at every
    moment exactly the sinks that the clients hold and the sinks in the pool,
    and no sink is both; so whenever the pool is empty, and [get_sink]
    constructs an object, every live sink is in use. *)
Theorem live_sinks_held_or_pooled h0 (cs : list (call T)) held st :
  client_run combine new_sink_init (dom h0, statistics_sink h0) cs (held, st) →
  dom (store st) = held ∪ list_to_set (m_sinks st)
  ∧ held ## list_to_set (m_sinks st)
  ∧ (m_sinks st = [] → dom (store st) = held).
Proof.
  intros [Hinv Hdom]%client_run_accounted.
  split_and!; [done| |].
  - destruct Hinv as (_ & _ & _ & Hdisj). simpl in *.
    intros q Hq Hqp%elem_of_list_to_set. by apply (Hdisj q).
  - intros Hpool. rewrite Hdom, Hpool. set_solver.
Qed.

(** X10: nothing leaks at the end: once the clients of a new sink have
    handed back every sink they held, each live object is one operand of
    [finalize], and after [finalize] its result is the only live object. *)
Theorem finalize_leaves_only_result h0 (cs : list (call T)) held st :
  client_run combine new_sink_init (dom h0, statistics_sink h0) cs (held, st) →
  held = ∅ →
  size (store st) = length (m_sinks st)
  ∧ ∃ result st',
      finalize combine new_sink_init st = Some (result, st')
      ∧ dom (store st') = {[result]}.
Proof.
  intros [Hinv Hdom]%client_run_accounted ->.
  destruct Hinv as (Hnd & Hlive & _). simpl in *.
  rewrite (left_id_L ∅ (∪)) in Hdom. split.
  - by rewrite <-size_dom, Hdom, size_list_to_set.
  - destruct (finalize_cases st Hnd Hlive)
      as (result & st' & Hfin & _ & Hres & _ & Hfreed & Hframe).
    exists result, st'. split; [done|].
    apply set_eq. intros q. rewrite elem_of_dom, elem_of_singleton.
    split; [|by intros ->].
    intros Hq. destruct (decide (q = result)) as [|Hne]; [done|].
    destruct (decide (q ∈ m_sinks st)) as [Hin | Hout].
    + rewrite Hfreed in Hq by done. by destruct Hq.
    + rewrite Hframe in Hq by done. apply elem_of_dom in Hq.
      rewrite Hdom in Hq. by apply elem_of_list_to_set in Hq.
Qed.

End sink_use_facts.

(** *** Instances *)

(** Every pointer of a concrete pool is live in a concrete store. *)
Ltac pool_live :=
  let p := fresh "p" in
  let Hp := fresh "Hp" in
  intros p Hp; simpl in Hp;
  repeat (apply elem_of_cons in Hp as [-> | Hp]; [by eexists|]);
  by apply elem_of_nil in Hp.

Lemma destroy_frees_pool_witness :
  let st := {| Sink.m_sinks := [1; 2]%positive;
               Sink.store := {[1%positive := 10%Z; 2%positive := 20%Z;
                               3%positive := 30%Z]} |} in
  ∃ h', SinkUse.destroy st = Some h'
        ∧ (∀ p, p ∈ Sink.m_sinks st → h' !! p = None)
        ∧ (∀ q, q ∉ Sink.m_sinks st → h' !! q = Sink.store st !! q).
Proof.
  intros st. apply (destroy_frees_pool st).
  - apply (bool_decide_unpack _). vm_compute. exact I.
  - pool_live.
Defined.

Lemma finalize_result_outlives_sink_witness :
  let st := {| Sink.m_sinks := [1; 2]%positive;
               Sink.store := {[1%positive := 10%Z; 2%positive := 20%Z]} |} in
  ∃ result st',
    Sink.finalize Z.add 0%Z st = Some (result, st')
    ∧ SinkUse.destroy st' = Some (Sink.store st')
    ∧ is_Some (Sink.store st' !! result).
Proof.
  intros st. apply (finalize_result_outlives_sink Z.add 0%Z st).
  - apply (bool_decide_unpack _). vm_compute. exact I.
  - pool_live.
Defined.

Lemma finalize_twice_witness :
  let st := {| Sink.m_sinks := [1; 2]%positive;
               Sink.store := {[1%positive := 10%Z; 2%positive := 20%Z]} |} in
  ∃ result st' result2 st'',
    Sink.finalize Z.add 0%Z st = Some (result, st')
    ∧ Sink.finalize Z.add 0%Z st' = Some (result2, st'')
    ∧ result2 ≠ result
    ∧ Sink.store st'' !! result2 = Some 0%Z
    ∧ Sink.store st'' !! result = Sink.store st' !! result.
Proof.
  intros st. apply (finalize_twice Z.add 0%Z st).
  - apply (bool_decide_unpack _). vm_compute. exact I.
  - pool_live.
Defined.

Lemma finalize_leaves_unpooled_witness :
  let st := {| Sink.m_sinks := [1; 2]%positive;
               Sink.store := {[1%positive := 10%Z; 2%positive := 20%Z;
                               3%positive := 30%Z]} |} in
  ∃ result st',
    Sink.finalize Z.add 0%Z st = Some (result, st')
    ∧ Sink.store st' !! result = Sink.left_fold Z.add (reverse [10; 20]%Z)
    ∧ ∀ q, q ∉ Sink.m_sinks st → is_Some (Sink.store st !! q) →
           q ≠ result ∧ Sink.store st' !! q = Sink.store st !! q.
Proof.
  intros st. apply (finalize_leaves_unpooled Z.add 0%Z st [10; 20]%Z).
  - apply (bool_decide_unpack _). vm_compute. exact I.
  - vm_compute. reflexivity.
Defined.

Lemma finalize_order_independent_witness :
  let st1 := {| Sink.m_sinks := [1; 2; 3]%positive;
                Sink.store := {[1%positive := 10%Z; 2%positive := 20%Z;
                                3%positive := 30%Z]} |} in
  let st2 := {| Sink.m_sinks := [3; 1; 2]%positive;
                Sink.store := {[1%positive := 10%Z; 2%positive := 20%Z;
                                3%positive := 30%Z]} |} in
  ∃ r1 st1' r2 st2',
    Sink.finalize Z.add 0%Z st1 = Some (r1, st1')
    ∧ Sink.finalize Z.add 0%Z st2 = Some (r2, st2')
    ∧ Sink.store st1' !! r1 = Sink.store st2' !! r2
    ∧ Sink.store st1' !! r1 = Sink.left_fold Z.add [10; 20; 30]%Z.
Proof.
  intros st1 st2.
  apply (finalize_order_independent Z.add 0%Z st1 st2 [10; 20; 30]%Z [30; 10; 20]%Z).
  - apply (bool_decide_unpack _). vm_compute. exact I.
  - apply (bool_decide_unpack _). vm_compute. exact I.
  - vm_compute. reflexivity.
  - vm_compute. reflexivity.
  - apply (bool_decide_unpack _). vm_compute. exact I.
  - discriminate.
Defined.

(** A client acquires a sink from a new pool, writes to it and hands it
    back. *)
Lemma client_run_example :
  SinkUse.client_run Z.add 0%Z
    (dom (∅ : gmap positive Z), Sink.statistics_sink ∅)
    [Sink.GetSink; Sink.Mutate 1%positive 5%Z; Sink.ReturnSink 1%positive]
    (({[1%positive]} ∪ dom (∅ : gmap positive Z)) ∖ {[1%positive]},
     {| Sink.m_sinks := [1%positive]; Sink.store := {[1%positive := 5%Z]} |}).
Proof.
  eapply SinkUse.run_step.
  { apply (SinkUse.step_get Z.add 0%Z _ _ 1%positive). reflexivity. }
  eapply SinkUse.run_step.
  { apply SinkUse.step_mutate; [set_solver|]. vm_compute. reflexivity. }
  eapply SinkUse.run_step.
  { apply SinkUse.step_return. set_solver. }
  apply SinkUse.run_done.
Qed.

Lemma protocol_is_safe_witness :
  let σ' : SinkUse.client_state :=
    (({[1%positive]} ∪ dom (∅ : gmap positive Z)) ∖ {[1%positive]},
     {| Sink.m_sinks := [1%positive]; Sink.store := {[1%positive := 5%Z]} |}) in
  SinkUse.sink_inv σ'
  ∧ is_Some (Sink.run_call Z.add 0%Z Sink.Finalize σ'.2)
  ∧ ∃ σ'', SinkUse.client_step Z.add 0%Z σ' Sink.Finalize σ''.
Proof.
  intros σ'.
  apply (protocol_is_safe Z.add 0%Z
           (dom (∅ : gmap positive Z), Sink.statistics_sink ∅)
           [Sink.GetSink; Sink.Mutate 1%positive 5%Z; Sink.ReturnSink 1%positive]
           σ' Sink.Finalize).
  - apply new_sink_inv.
  - apply client_run_example.
  - exact I.
Defined.

Lemma get_sink_exclusive_witness :
  let held : gset positive :=
    ({[1%positive]} ∪ dom (∅ : gmap positive Z)) ∖ {[1%positive]} in
  let st' := {| Sink.m_sinks := []; Sink.store := {[1%positive := 5%Z]} |} in
  (1%positive ∉ held) ∧ (1%positive ∉ Sink.m_sinks st').
Proof.
  intros held st'.
  apply (get_sink_exclusive Z.add 0%Z
           (dom (∅ : gmap positive Z), Sink.statistics_sink ∅)
           [Sink.GetSink; Sink.Mutate 1%positive 5%Z; Sink.ReturnSink 1%positive]
           held
           {| Sink.m_sinks := [1%positive]; Sink.store := {[1%positive := 5%Z]} |}
           1%positive st').
  - apply new_sink_inv.
  - apply client_run_example.
  - reflexivity.
Defined.

Lemma live_sinks_held_or_pooled_witness :
  let held : gset positive :=
    ({[1%positive]} ∪ dom (∅ : gmap positive Z)) ∖ {[1%positive]} in
  let st := {| Sink.m_sinks := [1%positive]; Sink.store := {[1%positive := 5%Z]} |} in
  dom (Sink.store st) = held ∪ list_to_set (Sink.m_sinks st)
  ∧ held ## list_to_set (Sink.m_sinks st)
  ∧ (Sink.m_sinks st = [] → dom (Sink.store st) = held).
Proof.
  intros held st.
  apply (live_sinks_held_or_pooled Z.add 0%Z ∅
           [Sink.GetSink; Sink.Mutate 1%positive 5%Z; Sink.ReturnSink 1%positive]
           held st).
  apply client_run_example.
Defined.

Lemma finalize_leaves_only_result_witness :
  let st := {| Sink.m_sinks := [1%positive]; Sink.store := {[1%positive := 5%Z]} |} in
  size (Sink.store st) = length (Sink.m_sinks st)
  ∧ ∃ result st',
      Sink.finalize Z.add 0%Z st = Some (result, st')
      ∧ dom (Sink.store st') = {[result]}.
Proof.
  intros st.
  apply (finalize_leaves_only_result Z.add 0%Z ∅
           [Sink.GetSink; Sink.Mutate 1%positive 5%Z; Sink.ReturnSink 1%positive]
           (({[1%positive]} ∪ dom (∅ : gmap positive Z)) ∖ {[1%positive]}) st).
  - apply client_run_example.
  - set_solver.
Defined.
